(** * compLex: acceptor combinators for a character-level lexer

    A verification development for [compLex.go].  An [Acceptor] is a Go
    closure [func(rune) bool]; most of the combinators return closures that
    capture mutable variables ([count], [seen], [i], [internal]).  Each
    function literal of the source is represented here by a constructor that
    carries the current contents of its captured variables, and [call] runs
    the body of the literal once: it returns the boolean together with the
    closure as it stands after the call, or the panic that interrupted it. *)

From Stdlib Require Import ZArith Bool String Ascii List Lia.
Import ListNotations.
Local Open Scope Z_scope.

(** ** Go base types *)

(** [rune] is an alias of [int32]; the library only compares runes. *)
Definition rune : Type := Z.

(** Go's [int], taken as 64 bits wide. *)
Definition int_bits : Z := 64.
Definition min_int : Z := - 2 ^ (int_bits - 1).
Definition max_int : Z := 2 ^ (int_bits - 1) - 1.
Definition in_int (z : Z) : Prop := min_int <= z <= max_int.

(** Two's complement wrap-around of [int] arithmetic. *)
Definition wrap_int (z : Z) : Z :=
  (z - min_int) mod 2 ^ int_bits + min_int.

(** [count++] *)
Definition incr (count : Z) : Z := wrap_int (count + 1).

(** The caller-supplied [error] payload; [None] is the nil interface. *)
Definition error : Type := option string.

(** What stops a call: [panic(err)] in an assertion, the call of a nil
    function value, or an index past the end of a slice. *)
Inductive failure : Type :=
| UserPanic (err : error)
| NilCall
| IndexOutOfRange.

Inductive result (A : Type) : Type :=
| Ok (a : A)
| Panic (f : failure).
Arguments Ok {A} a.
Arguments Panic {A} f.

Definition bind {A B : Type} (r : result A) (k : A -> result B) : result B :=
  match r with
  | Ok a => k a
  | Panic f => Panic f
  end.

Notation "' pat <- r ;; k" :=
  (bind r (fun x => match x with pat => k end))
  (at level 61, pat pattern, r at next level, right associativity).

(** ** Character classes

    [unicode.RangeTable] belongs to Go's standard library; the library under
    study only asks whether a rune is in a table ([unicode.Is]) or in one of
    several ([unicode.In]).  A table is represented by that membership
    test. *)
Record RangeTable : Type := { table_member : rune -> bool }.

Definition unicode_Is (t : RangeTable) (rn : rune) : bool := table_member t rn.

Definition unicode_In (rn : rune) (ts : list RangeTable) : bool :=
  existsb (fun t => unicode_Is t rn) ts.

(** ** Strings

    A Go string is a sequence of bytes; [for i, rn := range s] decodes it as
    UTF-8 and yields the byte offset and the code point of each character,
    with U+FFFD and a width of one byte for an invalid encoding. *)
Definition RuneError : rune := 65533.

Definition bytes_of (s : string) : list Z :=
  map (fun c => Z.of_N (N_of_ascii c)) (list_ascii_of_string s).

Definition continuation (lo hi b : Z) : bool := (lo <=? b) && (b <=? hi).

(** Size of the encoding announced by a lead byte and the range that its
    second byte must lie in. *)
Definition lead (s0 : Z) : option (nat * Z * Z) :=
  if (194 <=? s0) && (s0 <=? 223) then Some (2%nat, 128, 191)
  else if s0 =? 224 then Some (3%nat, 160, 191)
  else if s0 =? 237 then Some (3%nat, 128, 159)
  else if (225 <=? s0) && (s0 <=? 239) then Some (3%nat, 128, 191)
  else if s0 =? 240 then Some (4%nat, 144, 191)
  else if s0 =? 244 then Some (4%nat, 128, 143)
  else if (241 <=? s0) && (s0 <=? 243) then Some (4%nat, 128, 191)
  else None.

Definition decode_rune (bs : list Z) : rune * nat :=
  match bs with
  | [] => (RuneError, 0%nat)
  | s0 :: t =>
    if s0 <? 128 then (s0, 1%nat)
    else
      match lead s0, t with
      | Some (2%nat, lo, hi), s1 :: _ =>
        if continuation lo hi s1
        then (Z.lor (Z.shiftl (Z.land s0 31) 6) (Z.land s1 63), 2%nat)
        else (RuneError, 1%nat)
      | Some (3%nat, lo, hi), s1 :: s2 :: _ =>
        if continuation lo hi s1 && continuation 128 191 s2
        then (Z.lor (Z.shiftl (Z.land s0 15) 12)
                (Z.lor (Z.shiftl (Z.land s1 63) 6) (Z.land s2 63)), 3%nat)
        else (RuneError, 1%nat)
      | Some (4%nat, lo, hi), s1 :: s2 :: s3 :: _ =>
        if continuation lo hi s1 && continuation 128 191 s2
           && continuation 128 191 s3
        then (Z.lor (Z.shiftl (Z.land s0 7) 18)
                (Z.lor (Z.shiftl (Z.land s1 63) 12)
                   (Z.lor (Z.shiftl (Z.land s2 63) 6) (Z.land s3 63))), 4%nat)
        else (RuneError, 1%nat)
      | _, _ => (RuneError, 1%nat)
      end
  end.

(** The pairs [(i, rn)] of a [range] loop over the bytes [bs], which start at
    offset [i]; every step consumes at least one byte, so [fuel] may be the
    number of bytes. *)
Fixpoint range_bytes (fuel : nat) (i : nat) (bs : list Z) : list (nat * rune) :=
  match fuel, bs with
  | O, _ => []
  | _, [] => []
  | S fuel', _ :: _ =>
    let '(rn, size) := decode_rune bs in
    (i, rn) :: range_bytes fuel' (i + size)%nat (skipn size bs)
  end.

Definition range_string (s : string) : list (nat * rune) :=
  range_bytes (String.length s) 0%nat (bytes_of s).

Definition runes_of (s : string) : list rune := map snd (range_string s).

(** The rune of a character literal such as ['m']. *)
Definition rune_of (c : ascii) : rune := Z.of_N (N_of_ascii c).

#[local] Set Warnings "-register-all".

(** ** Acceptors as closures

    [Acceptor] is [func(rune) bool] and [state] is
    [func(rune) (bool, state)].  A value of either type is nil or one of the
    function literals of the source together with its captured variables.
    [Closure] stands for a function of type [Acceptor] written by a caller:
    some private state and a body over it. *)
Inductive Acceptor : Type :=
| NilAcceptor
| AccRune (spec : rune)
| AccRunes (spec : list rune)
| AccString (spec : string)
| AccTable (spec : RangeTable)
| AccTables (spec : list RangeTable)
| AllFn
| NoneFn
| Closure (St : Type) (s : St) (body : St -> rune -> result (bool * St))
| StateFn (internal : state)
| TruncateFn (max count : Z) (acc : Acceptor)
| EndsBeforeFn (delim : rune) (acc : Acceptor)
| EndsWithFn (delim : rune) (seen : bool) (acc : Acceptor)
| ChainFn (i : nat) (accs : list Acceptor)
| AssertAtMostFn (acc : Acceptor) (most count : Z) (err : error)
with state : Type :=
| NilState
| StatifyInternal (acc : Acceptor)
| BranchInternal (mapping : rune -> option Acceptor) (alt : Acceptor)
| FirstOfInternal (accs : list Acceptor)
| AssertStartInternal (acc : Acceptor) (err : error).

(** [for _, ex := range spec { if rn == ex { return true } }; return false] *)
Fixpoint among (rn : rune) (spec : list rune) : bool :=
  match spec with
  | [] => false
  | ex :: rest => if rn =? ex then true else among rn rest
  end.

(** The two loops over a slice of acceptors, over any type [A] of callable
    values. *)
Section Loops.
Context {A : Type}.
Variable callA : A -> rune -> result (bool * A).
Variable rn : rune.

(** The loop of [FirstOf]: the first acceptor that accepts [rn] is returned
    as it stands after that call; [None] is the nil continuation. *)
Fixpoint firstof_loop (accs : list A) : result (bool * option A) :=
  match accs with
  | [] => Ok (false, None)
  | acc :: rest =>
    '(b, acc') <- callA acc rn ;;
    if b then Ok (true, Some acc') else firstof_loop rest
  end.

(** The loop of [Chain], [for ; i != n; i++], by recursion on the slice:
    the stages before the cursor are passed over, the stage under the
    cursor is called, and a rejection moves the cursor on.  The result is
    the answer, the new cursor and the slice with the called stages as
    they stand afterwards. *)
Fixpoint chain_loop (i : nat) (accs : list A)
  : result (bool * (nat * list A)) :=
  match accs, i with
  | [], O => Ok (false, (O, []))
  | [], S _ => Panic IndexOutOfRange
  | acc :: rest, S i' =>
    '(out, (j, rest')) <- chain_loop i' rest ;;
    Ok (out, (S j, acc :: rest'))
  | acc :: rest, O =>
    '(b, acc') <- callA acc rn ;;
    if b then Ok (true, (O, acc' :: rest))
    else
      '(out, (j, rest')) <- chain_loop O rest ;;
      Ok (out, (S j, acc' :: rest'))
  end.
End Loops.

(** One call [acc(rn)], and one call [internal(rn)] of a [state]. *)
Fixpoint call (a : Acceptor) (rn : rune) {struct a} : result (bool * Acceptor) :=
  match a with
  | NilAcceptor => Panic NilCall
  | AccRune spec => Ok (rn =? spec, a)
  | AccRunes spec => Ok (among rn spec, a)
  | AccString spec => Ok (among rn (runes_of spec), a)
  | AccTable spec => Ok (unicode_Is spec rn, a)
  | AccTables spec => Ok (unicode_In rn spec, a)
  | AllFn => Ok (true, a)
  | NoneFn => Ok (false, a)
  | Closure St s body =>
    '(b, s') <- body s rn ;;
    Ok (b, Closure St s' body)
  | StateFn internal =>
    '(out, internal') <- call_state internal rn ;;
    Ok (out, StateFn internal')
  | TruncateFn max count acc =>
    if count <? max then
      '(b, acc') <- call acc rn ;;
      if b then Ok (true, TruncateFn max (incr count) acc')
      else Ok (false, TruncateFn max count acc')
    else Ok (false, a)
  | EndsBeforeFn delim acc =>
    if rn =? delim then Ok (false, a)
    else
      '(b, acc') <- call acc rn ;;
      Ok (b, EndsBeforeFn delim acc')
  | EndsWithFn delim seen acc =>
    if seen then Ok (false, a)
    else if rn =? delim then Ok (true, EndsWithFn delim true acc)
    else
      '(b, acc') <- call acc rn ;;
      Ok (b, EndsWithFn delim seen acc')
  | ChainFn i accs =>
    '(out, (i', accs')) <- chain_loop call rn i accs ;;
    Ok (out, ChainFn i' accs')
  | AssertAtMostFn acc most count err =>
    '(b, acc') <- call acc rn ;;
    if b then
      if count =? most then Panic (UserPanic err)
      else Ok (true, AssertAtMostFn acc' most (incr count) err)
    else Ok (false, AssertAtMostFn acc' most count err)
  end
with call_state (s : state) (rn : rune) {struct s} : result (bool * state) :=
  match s with
  | NilState => Panic NilCall
  | StatifyInternal acc =>
    '(b, acc') <- call acc rn ;;
    Ok (b, StatifyInternal acc')
  | BranchInternal mapping alt =>
    match mapping rn with
    | Some next => Ok (true, StatifyInternal next)
    | None =>
      '(b, alt') <- call alt rn ;;
      Ok (b, StatifyInternal alt')
    end
  | FirstOfInternal accs =>
    '(out, winner) <- firstof_loop call rn accs ;;
    match winner with
    | Some acc' => Ok (out, StatifyInternal acc')
    | None => Ok (out, NilState)
    end
  | AssertStartInternal acc err =>
    '(b, acc') <- call acc rn ;;
    if b then Ok (true, StatifyInternal acc')
    else Panic (UserPanic err)
  end.

(** ** The constructors of the library *)

(** The dynamic type of the [interface{}] argument of [Acc].  [IFunc] is a
    function value whose type is the unnamed [func(rune) bool], which is not
    the named type [Acceptor]; [IOther] is a value of any further type. *)
Inductive interface : Type :=
| INil
| IAcceptor (a : Acceptor)
| IRune (r : rune)
| IRunes (rs : list rune)
| IString (s : string)
| IRangeTable (t : RangeTable)
| IRangeTables (ts : list RangeTable)
| IInt (n : Z)
| IBool (b : bool)
| IFunc (f : Acceptor)
| IOther (T : Type) (v : T).

(** The kinds that the type switch of [Acc] has a case for. *)
Definition recognized (spec : interface) : bool :=
  match spec with
  | IAcceptor _ | IRune _ | IRunes _ | IString _
  | IRangeTable _ | IRangeTables _ => true
  | _ => false
  end.

Definition Acc (spec : interface) : Acceptor :=
  match spec with
  | IAcceptor spec => spec
  | IRune spec => AccRune spec
  | IRunes spec => AccRunes spec
  | IString spec => AccString spec
  | IRangeTable spec => AccTable spec
  | IRangeTables spec => AccTables spec
  | _ => NilAcceptor
  end.

Definition All : Acceptor := AllFn.

Definition None_ : Acceptor := NoneFn.

Definition statify (acc : Acceptor) : state := StatifyInternal acc.

Definition Branch (mapping : rune -> option Acceptor) (alt : Acceptor)
  : Acceptor :=
  StateFn (BranchInternal mapping alt).

Definition FirstOf (accs : list Acceptor) : Acceptor :=
  StateFn (FirstOfInternal accs).

Definition Truncate (max : Z) (acc : Acceptor) : Acceptor :=
  TruncateFn max 0 acc.

Definition EndsBefore (delim : rune) (acc : Acceptor) : Acceptor :=
  EndsBeforeFn delim acc.

Definition EndsWith (delim : rune) (acc : Acceptor) : Acceptor :=
  EndsWithFn delim false acc.

Definition Chain (accs : list Acceptor) : Acceptor := ChainFn 0 accs.

Definition Skip (skip : Z) (acc : Acceptor) : Acceptor :=
  Chain [Truncate skip All; acc].

Definition AssertStart (acc : Acceptor) (err : error) : Acceptor :=
  StateFn (AssertStartInternal acc err).

Definition AssertAtMost (acc : Acceptor) (most : Z) (err : error) : Acceptor :=
  AssertAtMostFn acc most 0 err.

(** ** Driving an acceptor

    One call per character, in order; the answers are collected and a panic
    ends the stream. *)
Fixpoint drive (a : Acceptor) (rns : list rune) : list (result bool) :=
  match rns with
  | [] => []
  | rn :: rest =>
    match call a rn with
    | Ok (b, a') => Ok b :: drive a' rest
    | Panic f => [Panic f]
    end
  end.

(** The acceptor as it stands after the stream, when no call panicked. *)
Fixpoint after (a : Acceptor) (rns : list rune) : option Acceptor :=
  match rns with
  | [] => Some a
  | rn :: rest =>
    match call a rn with
    | Ok (_, a') => after a' rest
    | Panic _ => None
    end
  end.

(** Number of calls that returned true. *)
Fixpoint accepted (answers : list (result bool)) : nat :=
  match answers with
  | [] => 0%nat
  | Ok true :: rest => S (accepted rest)
  | _ :: rest => accepted rest
  end.

(** ** The demonstration program

    What [main] reports for each character of [src]; the banner lines around
    the loop are left out. *)
Inductive report : Type :=
| Accepted (rn : rune) (i : nat)
| Rejected (rn : rune) (i : nat) (consumed remaining : string).

(** [src[:i+1]] and [src[i+1:]] *)
Definition slice_to (src : string) (j : nat) : string := substring 0 j src.
Definition slice_from (src : string) (j : nat) : string :=
  substring j (String.length src - j) src.

Fixpoint main_loop (acceptor : Acceptor) (src : string)
  (items : list (nat * rune)) : result (list report) :=
  match items with
  | [] => Ok []
  | (i, rn) :: rest =>
    '(b, acceptor') <- call acceptor rn ;;
    if negb b then
      Ok [Rejected rn i (slice_to src (i + 1)) (slice_from src (i + 1))]
    else
      'reports <- main_loop acceptor' src rest ;;
      Ok (Accepted rn i :: reports)
  end.

Definition main : result (list report) :=
  let acceptor := EndsBefore (rune_of "m") All in
  let src := "This is a demo."%string in
  main_loop acceptor src (range_string src).

(** ** Vocabulary of the statements *)

(** [l] with [v] stored at index [i]. *)
Fixpoint store {A : Type} (i : nat) (v : A) (l : list A) : list A :=
  match l, i with
  | [], _ => []
  | _ :: rest, O => v :: rest
  | x :: rest, S i' => x :: store i' v rest
  end.

(** The answers of the last stage of a chain: those of the stage itself up
    to and including its first rejection, false for whatever follows. *)
Fixpoint until_reject (a : Acceptor) (rns : list rune) : list (result bool) :=
  match rns with
  | [] => []
  | rn :: rest =>
    match call a rn with
    | Ok (true, a') => Ok true :: until_reject a' rest
    | Ok (false, _) => Ok false :: repeat (Ok false) (length rest)
    | Panic f => [Panic f]
    end
  end.

(** Number of calls that were made on [delim] and returned true. *)
Fixpoint accepted_of (delim : rune) (rns : list rune)
  (answers : list (result bool)) : nat :=
  match rns, answers with
  | rn :: rns', Ok true :: answers' =>
    if rn =? delim then S (accepted_of delim rns' answers')
    else accepted_of delim rns' answers'
  | _ :: rns', _ :: answers' => accepted_of delim rns' answers'
  | _, _ => 0%nat
  end.

(** The answers given on the characters other than [delim]. *)
Fixpoint off_delim (delim : rune) (rns : list rune)
  (answers : list (result bool)) : list (result bool) :=
  match rns, answers with
  | rn :: rns', answer :: answers' =>
    if rn =? delim then off_delim delim rns' answers'
    else answer :: off_delim delim rns' answers'
  | _, _ => []
  end.

(** The answers given on [delim]. *)
Fixpoint on_delim (delim : rune) (rns : list rune)
  (answers : list (result bool)) : list (result bool) :=
  match rns, answers with
  | rn :: rns', answer :: answers' =>
    if rn =? delim then answer :: on_delim delim rns' answers'
    else on_delim delim rns' answers'
  | _, _ => []
  end.

(** Whether a call rejected: it returned, and returned false. *)
Definition rejects (a : Acceptor) (rn : rune) : Prop :=
  exists a', call a rn = Ok (false, a').

Ltac int_range :=
  unfold in_int, min_int, max_int, int_bits; simpl; lia.

(** * Properties *)

(** ** Streams *)

Lemma drive_app (xs ys : list rune) : forall a,
  drive a (xs ++ ys) =
  match after a xs with
  | Some a' => drive a xs ++ drive a' ys
  | None => drive a xs
  end.
Proof.
  induction xs as [|x xs IH]; intro a; simpl; [reflexivity|].
  destruct (call a x) as [[b a']|f]; [|reflexivity].
  rewrite IH. destruct (after a' xs); reflexivity.
Qed.

Lemma after_app (xs ys : list rune) : forall a,
  after a (xs ++ ys) =
  match after a xs with
  | Some a' => after a' ys
  | None => None
  end.
Proof.
  induction xs as [|x xs IH]; intro a; simpl; [reflexivity|].
  destruct (call a x) as [[b a']|f]; [apply IH|reflexivity].
Qed.

(** A stream whose calls all returned true leaves an acceptor behind. *)
Lemma all_true_after (xs : list rune) : forall a,
  drive a xs = repeat (Ok true) (length xs) -> exists a', after a xs = Some a'.
Proof.
  induction xs as [|x xs IH]; intros a H; simpl in *; [eauto|].
  destruct (call a x) as [[b a']|f]; [|discriminate].
  injection H as _ H. eauto.
Qed.

(** ** The loop of [Chain] as the source writes it *)

(** [i == n]: the loop is not entered and nothing changes. *)
Lemma chain_loop_end (rn : rune) (accs : list Acceptor) :
  chain_loop call rn (length accs) accs = Ok (false, (length accs, accs)).
Proof.
  induction accs as [|a accs IH]; simpl; [reflexivity|].
  rewrite IH. reflexivity.
Qed.

(** [i != n]: [accs[i]] is called; when it accepts the cursor stays, and
    otherwise the loop goes on from [i + 1]. *)
Lemma chain_loop_step (rn : rune) (accs : list Acceptor) : forall i acc,
  nth_error accs i = Some acc ->
  chain_loop call rn i accs =
  ('(b, acc') <- call acc rn ;;
   if b then Ok (true, (i, store i acc' accs))
   else chain_loop call rn (S i) (store i acc' accs)).
Proof.
  induction accs as [|a accs IH]; intros [|i] acc H; simpl in H;
    try discriminate.
  - injection H as ->. simpl.
    destruct (call acc rn) as [[[|] acc']|f]; reflexivity.
  - simpl chain_loop at 1. rewrite (IH _ _ H).
    destruct (call acc rn) as [[[|] acc']|f]; reflexivity.
Qed.

Lemma call_chain_end (rn : rune) (accs : list Acceptor) :
  call (ChainFn (length accs) accs) rn =
  Ok (false, ChainFn (length accs) accs).
Proof. simpl. rewrite chain_loop_end. reflexivity. Qed.

(** A chain whose cursor is past its last stage rejects whatever comes. *)
Lemma chain_pinned (accs : list Acceptor) (rns : list rune) :
  drive (ChainFn (length accs) accs) rns = repeat (Ok false) (length rns).
Proof.
  induction rns as [|rn rns IH]; [reflexivity|].
  cbn [drive]. rewrite call_chain_end. cbn [length repeat]. now rewrite IH.
Qed.

(** ** Integers *)

Lemma incr_below (max count : Z) :
  in_int max -> 0 <= count < max -> incr count = count + 1.
Proof.
  unfold in_int, incr, wrap_int, min_int, max_int, int_bits.
  simpl. intros Hmax Hc.
  rewrite Z.mod_small by lia. lia.
Qed.

(** ** Truncate *)

Lemma call_truncate_ceiling (max count : Z) (acc : Acceptor) (rn : rune) :
  max <= count ->
  call (TruncateFn max count acc) rn = Ok (false, TruncateFn max count acc).
Proof.
  intro H. simpl. destruct (Z.ltb_spec count max); [lia|reflexivity].
Qed.

Lemma call_truncate_below (max count : Z) (acc : Acceptor) (rn : rune) :
  in_int max -> 0 <= count < max ->
  call (TruncateFn max count acc) rn =
  ('(b, acc') <- call acc rn ;;
   if b then Ok (true, TruncateFn max (count + 1) acc')
   else Ok (false, TruncateFn max count acc')).
Proof.
  intros Hmax H. simpl. destruct (Z.ltb_spec count max); [|lia].
  rewrite (incr_below max) by assumption. reflexivity.
Qed.

(** At the ceiling the wrapped acceptor is no longer consulted. *)
Lemma truncate_ceiling (max count : Z) (acc : Acceptor) (rns : list rune) :
  max <= count ->
  drive (TruncateFn max count acc) rns = repeat (Ok false) (length rns).
Proof.
  intro H. induction rns as [|rn rns IH]; [reflexivity|].
  cbn [drive]. rewrite call_truncate_ceiling by assumption.
  cbn [length repeat]. now rewrite IH.
Qed.

(** [count] plus the acceptances of the stream never passes [max]. *)
Lemma truncate_count_bound (max : Z) (rns : list rune) :
  in_int max -> forall count acc,
  0 <= count <= max ->
  count + Z.of_nat (accepted (drive (TruncateFn max count acc) rns)) <= max.
Proof.
  intro Hmax. induction rns as [|rn rns IH]; intros count acc Hc.
  - simpl. lia.
  - cbn [drive]. destruct (Z.lt_ge_cases count max) as [Hlt|Hge].
    + rewrite call_truncate_below by (assumption || lia).
      destruct (call acc rn) as [[[|] acc']|f]; cbn [bind accepted].
      * specialize (IH (count + 1) acc'). lia.
      * apply IH. lia.
      * lia.
    + rewrite call_truncate_ceiling by assumption. cbn [accepted].
      apply IH. lia.
Qed.

(** Once [count] plus the acceptances of a stream equals [max], whatever
    follows is rejected. *)
Lemma truncate_full (max : Z) (pre rns : list rune) :
  in_int max -> forall count acc,
  0 <= count <= max ->
  count + Z.of_nat (accepted (drive (TruncateFn max count acc) pre)) = max ->
  drive (TruncateFn max count acc) (pre ++ rns) =
  drive (TruncateFn max count acc) pre ++ repeat (Ok false) (length rns).
Proof.
  intro Hmax. induction pre as [|rn pre IH]; intros count acc Hc Hfull.
  - simpl in Hfull. simpl. apply truncate_ceiling. lia.
  - cbn [drive app] in *. destruct (Z.lt_ge_cases count max) as [Hlt|Hge].
    + rewrite call_truncate_below in * by (assumption || lia).
      destruct (call acc rn) as [[[|] acc']|f]; cbn [bind accepted] in *.
      * cbn [app]. f_equal. apply IH; lia.
      * cbn [app]. f_equal. apply IH; lia.
      * lia.
    + rewrite call_truncate_ceiling in * by assumption.
      cbn [accepted app] in *. f_equal. apply IH; lia.
Qed.

(** The closure that a stream leaves behind: the same [max], a [count]
    advanced by the acceptances, and the wrapped acceptor. *)
Lemma truncate_after (max : Z) (pre : list rune) :
  in_int max -> forall count acc t,
  0 <= count ->
  after (TruncateFn max count acc) pre = Some t ->
  exists acc',
    t = TruncateFn max
          (count + Z.of_nat (accepted (drive (TruncateFn max count acc) pre)))
          acc'.
Proof.
  intro Hmax. induction pre as [|rn pre IH]; intros count acc t Hc H.
  - simpl in *. injection H as <-. exists acc. f_equal. lia.
  - cbn [drive after] in *. destruct (Z.lt_ge_cases count max) as [Hlt|Hge].
    + rewrite call_truncate_below in * by (assumption || lia).
      destruct (call acc rn) as [[[|] acc']|f]; cbn [bind accepted] in *.
      * destruct (IH (count + 1) acc' t ltac:(lia) H) as [a ->].
        exists a. f_equal. lia.
      * apply IH; [lia|assumption].
      * discriminate.
    + rewrite call_truncate_ceiling in * by assumption.
      cbn [accepted]. apply IH; [lia|assumption].
Qed.

(** Below the ceiling every character is put to the wrapped acceptor and its
    answer is returned. *)
Lemma truncate_below (max : Z) (rns : list rune) :
  in_int max -> forall count acc,
  0 <= count ->
  count + Z.of_nat (accepted (drive acc rns)) < max ->
  drive (TruncateFn max count acc) rns = drive acc rns.
Proof.
  intro Hmax. induction rns as [|rn rns IH]; intros count acc Hc H;
    [reflexivity|].
  cbn [drive] in *.
  assert (count < max) by lia.
  rewrite call_truncate_below by (assumption || lia).
  destruct (call acc rn) as [[[|] acc']|f]; cbn [bind accepted] in *.
  - f_equal. apply IH; lia.
  - f_equal. apply IH; lia.
  - reflexivity.
Qed.

(** Below the ceiling, one character further: a call made while fewer than
    [max] characters have been accepted returns the wrapped acceptor's
    answer, the call that makes the [max]-th acceptance included. *)
Lemma truncate_below_last (max : Z) (rns : list rune) (last : rune) :
  in_int max -> forall count acc,
  0 <= count ->
  count + Z.of_nat (accepted (drive acc rns)) < max ->
  drive (TruncateFn max count acc) (rns ++ [last]) = drive acc (rns ++ [last]).
Proof.
  intro Hmax. induction rns as [|rn rns IH]; intros count acc Hc H.
  - cbn [app drive accepted] in *.
    rewrite call_truncate_below by (assumption || lia).
    destruct (call acc last) as [[[|] acc']|f]; reflexivity.
  - cbn [app drive] in *.
    assert (count < max) by lia.
    rewrite call_truncate_below by (assumption || lia).
    destruct (call acc rn) as [[[|] acc']|f]; cbn [bind accepted] in *.
    + f_equal. apply IH; lia.
    + f_equal. apply IH; lia.
    + reflexivity.
Qed.

(** C5.  For every [max >= 0], every wrapped acceptor and every finite
    stream driven through one [Truncate(max, acc)]: at most [max] calls
    return true, and once [max] calls have returned true every further call
    returns false, whatever the wrapped acceptor would answer. *)
Theorem Truncate_at_most_max (max : Z) (acc : Acceptor) :
  in_int max -> 0 <= max ->
  (forall rns,
     Z.of_nat (accepted (drive (Truncate max acc) rns)) <= max) /\
  (forall pre rns,
     Z.of_nat (accepted (drive (Truncate max acc) pre)) = max ->
     drive (Truncate max acc) (pre ++ rns) =
     drive (Truncate max acc) pre ++ repeat (Ok false) (length rns)).
Proof.
  intros Hmax Hpos. unfold Truncate. split.
  - intro rns.
    pose proof (truncate_count_bound max rns Hmax 0 acc). lia.
  - intros pre rns H. apply truncate_full; [assumption|lia|lia].
Qed.

Lemma Truncate_at_most_max_witness :
  (forall rns,
     Z.of_nat (accepted (drive (Truncate 1 All) rns)) <= 1) /\
  (forall pre rns,
     Z.of_nat (accepted (drive (Truncate 1 All) pre)) = 1 ->
     drive (Truncate 1 All) (pre ++ rns) =
     drive (Truncate 1 All) pre ++ repeat (Ok false) (length rns)).
Proof. apply (Truncate_at_most_max 1 All); int_range. Defined.

(** C2, as the code has it.  A rejection by the wrapped acceptor leaves
    [count] as it was: from the closure that any stream leaves behind, a
    call that consults the wrapped acceptor and is rejected returns false
    and changes nothing but the wrapped acceptor; the very next character,
    if the wrapped acceptor accepts it, is accepted and counted; and every
    later call made while fewer than [max] characters have been accepted,
    the one that makes the [max]-th acceptance included, returns the wrapped
    acceptor's own answer.  Only the ceiling is permanent: with [count] at
    [max] every character is rejected. *)
Theorem Truncate_rejection_not_permanent
  (max : Z) (acc : Acceptor) (pre : list rune) (count : Z) (a : Acceptor) :
  in_int max ->
  after (Truncate max acc) pre = Some (TruncateFn max count a) ->
  (count < max ->
   forall rn a', call a rn = Ok (false, a') ->
     call (TruncateFn max count a) rn = Ok (false, TruncateFn max count a') /\
     (forall next a'',
        call a' next = Ok (true, a'') ->
        call (TruncateFn max count a') next =
        Ok (true, TruncateFn max (count + 1) a'')) /\
     (forall rns last,
        count + Z.of_nat (accepted (drive a' rns)) < max ->
        drive (TruncateFn max count a') (rns ++ [last]) =
        drive a' (rns ++ [last])) /\
     (forall rns,
        count + Z.of_nat (accepted (drive a' rns)) < max ->
        drive (TruncateFn max count a') rns = drive a' rns)) /\
  (max <= count ->
   forall rns,
     drive (TruncateFn max count a) rns = repeat (Ok false) (length rns)).
Proof.
  intros Hmax Hafter.
  destruct (truncate_after max pre Hmax 0 acc _ ltac:(lia) Hafter)
    as [acc' E].
  injection E as Ecount _.
  assert (0 <= count) by lia.
  split.
  - intros Hlt rn a' Hcall. repeat split.
    + rewrite call_truncate_below by (assumption || lia).
      rewrite Hcall. reflexivity.
    + intros next a'' Hnext.
      rewrite call_truncate_below by (assumption || lia).
      rewrite Hnext. reflexivity.
    + intros rns last Hfew. apply truncate_below_last; assumption.
    + intros rns Hfew. apply truncate_below; assumption.
  - intros Hge rns. apply truncate_ceiling. assumption.
Qed.

Lemma Truncate_rejection_not_permanent_witness :
  let x := rune_of "x" in
  let y := rune_of "y" in
  call (Truncate 1 (AccRune x)) y = Ok (false, Truncate 1 (AccRune x)) /\
  call (Truncate 1 (AccRune x)) x = Ok (true, TruncateFn 1 1 (AccRune x)) /\
  drive (Truncate 1 (AccRune x)) ([y] ++ [x]) = [Ok false; Ok true] /\
  drive (TruncateFn 1 1 (AccRune x)) [x; y] = [Ok false; Ok false].
Proof.
  intros x y.
  destruct (Truncate_rejection_not_permanent 1 (AccRune x) [] 0 (AccRune x))
    as [Hbelow _]; [int_range|reflexivity|].
  destruct (Hbelow ltac:(lia) y (AccRune x) eq_refl)
    as (Hcall & Hnext & Hlast & _).
  destruct (Truncate_rejection_not_permanent 1 (AccRune x) [x] 1 (AccRune x))
    as [_ Hceiling]; [int_range|reflexivity|].
  split; [|split; [|split]].
  - exact Hcall.
  - exact (Hnext x (AccRune x) eq_refl).
  - apply (Hlast [y] x). vm_compute. reflexivity.
  - exact (Hceiling ltac:(lia) [x; y]).
Defined.

(** C2, as the claim has it, fails: [Truncate(2, Acc('x'))] consults its
    wrapped acceptor on ['y'], which is rejected, and accepts the ['x'] that
    follows. *)
Lemma Truncate_rejection_latch_counterexample :
  let x := rune_of "x" in
  let y := rune_of "y" in
  call (Acc (IRune x)) y = Ok (false, Acc (IRune x)) /\
  drive (Truncate 2 (Acc (IRune x))) [y; x] = [Ok false; Ok true].
Proof. split; reflexivity. Qed.

(** ** Chain and Skip *)

Lemma call_chain (i : nat) (accs : list Acceptor) (rn : rune) :
  call (ChainFn i accs) rn =
  ('(out, (i', accs')) <- chain_loop call rn i accs ;;
   Ok (out, ChainFn i' accs')).
Proof. reflexivity. Qed.

(** With the cursor on the last of two stages. *)
Lemma call_chain_last (t a : Acceptor) (rn : rune) :
  call (ChainFn 1 [t; a]) rn =
  ('(b, a') <- call a rn ;;
   Ok (b, ChainFn (if b then 1 else 2) [t; a'])).
Proof.
  rewrite call_chain. rewrite (chain_loop_step rn [t; a] 1 a eq_refl).
  destruct (call a rn) as [[[|] a']|f]; reflexivity.
Qed.

Lemma chain_last_drive (t : Acceptor) (rns : list rune) : forall a,
  drive (ChainFn 1 [t; a]) rns = until_reject a rns.
Proof.
  induction rns as [|rn rns IH]; intro a; [reflexivity|].
  cbn [drive until_reject]. rewrite call_chain_last.
  destruct (call a rn) as [[[|] a']|f]; cbn [bind].
  - now rewrite IH.
  - f_equal. apply (chain_pinned [t; a']).
  - reflexivity.
Qed.

(** [Skip] while its counter is below [skip]: the character is accepted by
    the first stage and the second stage does not see it. *)
Lemma call_skip_counting (skip count : Z) (acc : Acceptor) (rn : rune) :
  in_int skip -> 0 <= count < skip ->
  call (ChainFn 0 [TruncateFn skip count All; acc]) rn =
  Ok (true, ChainFn 0 [TruncateFn skip (count + 1) All; acc]).
Proof.
  intros Hs Hc. rewrite call_chain.
  erewrite chain_loop_step by reflexivity.
  rewrite call_truncate_below by assumption. reflexivity.
Qed.

(** [Skip] with its counter at [skip]: the first stage rejects and the same
    character goes to the second stage. *)
Lemma call_skip_done (skip count : Z) (acc : Acceptor) (rn : rune) :
  skip <= count ->
  call (ChainFn 0 [TruncateFn skip count All; acc]) rn =
  ('(b, a') <- call acc rn ;;
   Ok (b, ChainFn (if b then 1 else 2) [TruncateFn skip count All; a'])).
Proof.
  intro Hc. rewrite call_chain.
  erewrite chain_loop_step by reflexivity.
  rewrite call_truncate_ceiling by assumption. cbn [bind store].
  erewrite chain_loop_step by reflexivity.
  destruct (call acc rn) as [[[|] a']|f]; reflexivity.
Qed.

Lemma skip_drive (skip : Z) (acc : Acceptor) (rns : list rune) :
  in_int skip -> forall count,
  0 <= count <= skip ->
  drive (ChainFn 0 [TruncateFn skip count All; acc]) rns =
  repeat (Ok true) (Nat.min (Z.to_nat (skip - count)) (length rns)) ++
  until_reject acc (skipn (Z.to_nat (skip - count)) rns).
Proof.
  intro Hs. induction rns as [|rn rns IH]; intros count Hc.
  - rewrite Nat.min_0_r, skipn_nil. reflexivity.
  - destruct (Z.lt_ge_cases count skip) as [Hlt|Hge].
    + cbn [drive]. rewrite call_skip_counting by (assumption || lia).
      rewrite IH by lia.
      replace (Z.to_nat (skip - count))
        with (S (Z.to_nat (skip - (count + 1)))) by lia.
      reflexivity.
    + replace (skip - count) with 0 by lia. cbn [Z.to_nat Nat.min repeat skipn app].
      cbn [drive until_reject]. rewrite call_skip_done by assumption.
      destruct (call acc rn) as [[[|] a']|f]; cbn [bind].
      * now rewrite chain_last_drive.
      * f_equal. apply (chain_pinned [_; a']).
      * reflexivity.
Qed.

Lemma until_reject_agrees (pre : list rune) (rn : rune) : forall a,
  drive a pre = repeat (Ok true) (length pre) ->
  until_reject a (pre ++ [rn]) = drive a (pre ++ [rn]).
Proof.
  induction pre as [|p pre IH]; intros a H.
  - simpl. destruct (call a rn) as [[[|] a']|f]; reflexivity.
  - cbn [drive until_reject app length repeat] in *.
    destruct (call a p) as [[[|] a']|f]; try discriminate.
    injection H as H. now rewrite IH.
Qed.

Lemma until_reject_rejected (pre : list rune) (rn : rune) (post : list rune) :
  forall a,
  drive a (pre ++ [rn]) = repeat (Ok true) (length pre) ++ [Ok false] ->
  until_reject a (pre ++ rn :: post) =
  drive a (pre ++ [rn]) ++ repeat (Ok false) (length post).
Proof.
  induction pre as [|p pre IH]; intros a H.
  - simpl in *. destruct (call a rn) as [[[|] a']|f]; try discriminate.
    reflexivity.
  - cbn [drive until_reject app length repeat] in *.
    destruct (call a p) as [[[|] a']|f]; try discriminate.
    injection H as H. cbn [app]. now rewrite IH.
Qed.

(** C3, as the code has it.  For every [n >= 0] and every acceptor,
    [Skip(n, acc)] accepts its first [n] characters whatever they are; from
    the next character on its answers are those of a fresh [acc] on the
    remaining characters, up to and including the first character that
    [acc] rejects; after that rejection every further character is
    rejected. *)
Theorem Skip_then_delegates_until_rejection (n : Z) (acc : Acceptor) :
  in_int n -> 0 <= n ->
  (forall skipped,
     Z.of_nat (length skipped) <= n ->
     drive (Skip n acc) skipped = repeat (Ok true) (length skipped)) /\
  (forall skipped pre rn,
     Z.of_nat (length skipped) = n ->
     drive acc pre = repeat (Ok true) (length pre) ->
     drive (Skip n acc) (skipped ++ pre ++ [rn]) =
     repeat (Ok true) (length skipped) ++ drive acc (pre ++ [rn])) /\
  (forall skipped pre rn post,
     Z.of_nat (length skipped) = n ->
     drive acc (pre ++ [rn]) = repeat (Ok true) (length pre) ++ [Ok false] ->
     drive (Skip n acc) (skipped ++ pre ++ rn :: post) =
     repeat (Ok true) (length skipped) ++ drive acc (pre ++ [rn]) ++
     repeat (Ok false) (length post)).
Proof.
  intros Hn Hpos. unfold Skip, Chain, Truncate.
  split; [|split].
  - intros skipped Hlen. rewrite skip_drive by (assumption || lia).
    rewrite Z.sub_0_r, Nat.min_r by lia.
    rewrite skipn_all2 by lia. apply app_nil_r.
  - intros skipped pre rn Hlen Hpre. rewrite skip_drive by (assumption || lia).
    rewrite Z.sub_0_r, <- Hlen, Nat2Z.id.
    rewrite Nat.min_l by (rewrite length_app; lia).
    rewrite skipn_app, skipn_all, Nat.sub_diag. cbn [app skipn].
    now rewrite until_reject_agrees.
  - intros skipped pre rn post Hlen Hrej.
    rewrite skip_drive by (assumption || lia).
    rewrite Z.sub_0_r, <- Hlen, Nat2Z.id.
    rewrite Nat.min_l by (rewrite length_app; lia).
    rewrite skipn_app, skipn_all, Nat.sub_diag. cbn [app skipn].
    now rewrite until_reject_rejected.
Qed.

Lemma Skip_then_delegates_until_rejection_witness :
  let a := rune_of "a" in
  let x := rune_of "x" in
  let y := rune_of "y" in
  drive (Skip 1 (AccRune x)) [a; x; y; x] =
  [Ok true; Ok true; Ok false; Ok false].
Proof.
  intros a x y.
  destruct (Skip_then_delegates_until_rejection 1 (AccRune x))
    as (_ & _ & H); [int_range|lia|].
  exact (H [a] [x] y [x] eq_refl eq_refl).
Defined.

(** C3, as the claim has it, fails: after [Skip(1, Acc('x'))] has let one
    character through, ['y'] is rejected and so is the ['x'] that follows,
    which a fresh [Acc('x')] accepts. *)
Lemma Skip_fresh_instance_counterexample :
  let a := rune_of "a" in
  let x := rune_of "x" in
  let y := rune_of "y" in
  drive (Skip 1 (Acc (IRune x))) [a; y; x] = [Ok true; Ok false; Ok false] /\
  drive (Acc (IRune x)) [y; x] = [Ok false; Ok true] /\
  skipn 1 (drive (Skip 1 (Acc (IRune x))) [a; y; x]) <>
  drive (Acc (IRune x)) (skipn 1 [a; y; x]).
Proof. repeat split; try reflexivity. vm_compute. discriminate. Qed.

(** ** EndsWith *)

Lemma endswith_seen (delim : rune) (acc : Acceptor) (rns : list rune) :
  drive (EndsWithFn delim true acc) rns = repeat (Ok false) (length rns).
Proof.
  induction rns as [|rn rns IH]; [reflexivity|].
  cbn [drive call length repeat]. now rewrite IH.
Qed.

(** Until the delimiter shows up the answers are those of the wrapped
    acceptor, and none of them is an accepted delimiter. *)
Lemma endswith_before (delim : rune) (pre post : list rune) :
  ~ In delim pre -> forall acc acc',
  after acc pre = Some acc' ->
  drive (EndsWithFn delim false acc) (pre ++ post) =
  drive acc pre ++ drive (EndsWithFn delim false acc') post /\
  accepted_of delim (pre ++ post)
    (drive (EndsWithFn delim false acc) (pre ++ post)) =
  accepted_of delim post (drive (EndsWithFn delim false acc') post).
Proof.
  induction pre as [|p pre IH]; intros Hnot acc acc' Hafter.
  - simpl in Hafter. injection Hafter as ->. split; reflexivity.
  - assert (Hp : (p =? delim) = false)
      by (apply Z.eqb_neq; intros ->; apply Hnot; left; reflexivity).
    assert (Hpre : ~ In delim pre) by (intro; apply Hnot; right; assumption).
    cbn [after drive app call accepted_of] in *. rewrite Hp.
    destruct (call acc p) as [[b a']|f]; [|discriminate]. cbn [bind].
    destruct (IH Hpre a' acc' Hafter) as [-> ->].
    split; [reflexivity|]. destruct b; reflexivity.
Qed.

Lemma accepted_of_rejected (delim : rune) (rns : list rune) :
  accepted_of delim rns (repeat (Ok false) (length rns)) = 0%nat.
Proof. induction rns as [|rn rns IH]; [reflexivity|exact IH]. Qed.

(** C7.  For every delimiter, every acceptor and every stream through one
    [EndsWith(delim, acc)] that reaches the delimiter: the first occurrence
    of [delim] is accepted, every call after it returns false whatever the
    character, and so the delimiter is accepted exactly once. *)
Theorem EndsWith_delimiter_once
  (delim : rune) (acc : Acceptor) (pre rns : list rune) (acc' : Acceptor) :
  ~ In delim pre ->
  after acc pre = Some acc' ->
  drive (EndsWith delim acc) (pre ++ delim :: rns) =
  drive acc pre ++ Ok true :: repeat (Ok false) (length rns) /\
  accepted_of delim (pre ++ delim :: rns)
    (drive (EndsWith delim acc) (pre ++ delim :: rns)) = 1%nat.
Proof.
  intros Hnot Hafter. unfold EndsWith.
  destruct (endswith_before delim pre (delim :: rns) Hnot acc acc' Hafter)
    as [-> ->].
  cbn [drive call accepted_of]. rewrite Z.eqb_refl.
  rewrite endswith_seen, accepted_of_rejected. split; reflexivity.
Qed.

Lemma EndsWith_delimiter_once_witness :
  let a := rune_of "a" in
  let semi := rune_of ";" in
  drive (EndsWith semi All) [a; a; semi; a; semi] =
  [Ok true; Ok true; Ok true; Ok false; Ok false] /\
  accepted_of semi [a; a; semi; a; semi]
    (drive (EndsWith semi All) [a; a; semi; a; semi]) = 1%nat.
Proof.
  intros a semi.
  apply (EndsWith_delimiter_once semi All [a; a] [a; semi] All).
  - vm_compute. intros [H|[H|[]]]; discriminate H.
  - reflexivity.
Defined.

(** ** AssertStart *)

Lemma call_statify (acc : Acceptor) (rn : rune) :
  call (StateFn (statify acc)) rn =
  ('(b, acc') <- call acc rn ;; Ok (b, StateFn (statify acc'))).
Proof.
  unfold statify. cbn [call call_state].
  destruct (call acc rn) as [[b acc']|f]; reflexivity.
Qed.

(** A statified acceptor answers as the acceptor it wraps. *)
Lemma statify_drive (rns : list rune) : forall acc,
  drive (StateFn (statify acc)) rns = drive acc rns.
Proof.
  induction rns as [|rn rns IH]; intro acc; [reflexivity|].
  cbn [drive]. rewrite call_statify.
  destruct (call acc rn) as [[b acc']|f]; cbn [bind]; [|reflexivity].
  now rewrite IH.
Qed.

Lemma call_AssertStart (acc : Acceptor) (err : error) (rn : rune) :
  call (AssertStart acc err) rn =
  ('(b, acc') <- call acc rn ;;
   if b then Ok (true, StateFn (statify acc')) else Panic (UserPanic err)).
Proof.
  unfold AssertStart. cbn [call call_state].
  destruct (call acc rn) as [[[|] acc']|f]; reflexivity.
Qed.

(** C8.  For every acceptor and payload, when [acc] answers the first
    character: the first call on [AssertStart(acc, err)] panics with [err]
    itself if and only if [acc] rejects; if [acc] accepts, the call returns
    true and every later call returns what [acc] returns, as the
    continuation is [statify(acc)], which holds no assertion. *)
Theorem AssertStart_first_call
  (acc : Acceptor) (err : error) (rn : rune) (b : bool) (acc' : Acceptor) :
  call acc rn = Ok (b, acc') ->
  (call (AssertStart acc err) rn = Panic (UserPanic err) <-> b = false) /\
  (b = true ->
   call (AssertStart acc err) rn = Ok (true, StateFn (statify acc')) /\
   forall rns, drive (StateFn (statify acc')) rns = drive acc' rns).
Proof.
  intro H. rewrite call_AssertStart, H. cbn [bind].
  destruct b; split.
  - split; discriminate.
  - intros _. split; [reflexivity|]. intro rns. apply statify_drive.
  - split; reflexivity.
  - discriminate.
Qed.

Lemma AssertStart_first_call_witness :
  let x := rune_of "x" in
  let y := rune_of "y" in
  let err := Some "expected x"%string in
  (call (AssertStart (AccRune x) err) y = Panic (UserPanic err)
   <-> false = false) /\
  (false = true ->
   call (AssertStart (AccRune x) err) y =
   Ok (true, StateFn (statify (AccRune x))) /\
   forall rns, drive (StateFn (statify (AccRune x))) rns
               = drive (AccRune x) rns).
Proof.
  intros x y err.
  apply (AssertStart_first_call (AccRune x) err y false (AccRune x)).
  reflexivity.
Defined.

(** A panic of the wrapped acceptor goes through [AssertStart] as it is. *)
Lemma AssertStart_propagates (acc : Acceptor) (err : error) (rn : rune)
  (f : failure) :
  call acc rn = Panic f -> call (AssertStart acc err) rn = Panic f.
Proof. intro H. rewrite call_AssertStart, H. reflexivity. Qed.

(** ** EndsBefore *)

(** C10.  [EndsBefore(delim, acc)] holds no state: over an acceptor with no
    state of its own, and after any history, a call returns true if and
    only if the character is not [delim] and [acc] accepts it, and it
    leaves the acceptor as it was.  A rejected delimiter does not latch. *)
Theorem EndsBefore_stateless
  (delim : rune) (acc : Acceptor) (p : rune -> bool) :
  (forall rn, call acc rn = Ok (p rn, acc)) ->
  forall history,
    after (EndsBefore delim acc) history = Some (EndsBefore delim acc) /\
    forall rn,
      drive (EndsBefore delim acc) (history ++ [rn]) =
      drive (EndsBefore delim acc) history ++
      [Ok (negb (rn =? delim) && p rn)].
Proof.
  intro Hacc.
  assert (Hcall : forall rn, call (EndsBefore delim acc) rn =
                    Ok (negb (rn =? delim) && p rn, EndsBefore delim acc)).
  { intro rn. unfold EndsBefore. cbn [call].
    destruct (rn =? delim); [reflexivity|]. rewrite Hacc. reflexivity. }
  assert (Hafter : forall history,
             after (EndsBefore delim acc) history
             = Some (EndsBefore delim acc)).
  { induction history as [|h history IH]; [reflexivity|].
    cbn [after]. rewrite Hcall. exact IH. }
  intro history. split; [apply Hafter|].
  intro rn. rewrite drive_app, Hafter. cbn [drive].
  rewrite Hcall. reflexivity.
Qed.

Lemma EndsBefore_stateless_witness :
  let m := rune_of "m" in
  let o := rune_of "o" in
  drive (EndsBefore m All) ([m; m] ++ [o]) =
  drive (EndsBefore m All) [m; m] ++ [Ok true].
Proof.
  intros m o.
  apply (EndsBefore_stateless m All (fun _ => true)).
  intro rn. reflexivity.
Defined.

(** ** Acc *)

(** C9.  For a spec of none of the kinds that the type switch knows, [Acc]
    returns the nil acceptor (it has no way to panic: it is a function into
    [Acceptor]); for a spec that is an [Acceptor] already it returns that
    very acceptor. *)
Theorem Acc_unrecognized_is_nil :
  (forall spec, recognized spec = false -> Acc spec = NilAcceptor) /\
  (forall a, Acc (IAcceptor a) = a).
Proof.
  split.
  - intros [] H; try reflexivity; discriminate H.
  - reflexivity.
Qed.

Lemma Acc_unrecognized_is_nil_witness :
  Acc (IInt 7) = NilAcceptor /\ Acc (IFunc All) = NilAcceptor.
Proof.
  split; apply (proj1 Acc_unrecognized_is_nil); reflexivity.
Defined.

(** ** Chain, on the example of the specification *)

(** C6.  With [a] accepting one ['x'] and [b] accepting ['y'],
    [Chain(a, b)] answers true, true on "xy", true, true on "yy" and true,
    false on "xx". *)
Theorem Chain_one_x_then_y :
  let a := Truncate 1 (Acc (IRune (rune_of "x"))) in
  let b := Acc (IRune (rune_of "y")) in
  drive (Chain [a; b]) (runes_of "xy") = [Ok true; Ok true] /\
  drive (Chain [a; b]) (runes_of "yy") = [Ok true; Ok true] /\
  drive (Chain [a; b]) (runes_of "xx") = [Ok true; Ok false].
Proof. repeat split; reflexivity. Qed.

(** ** The demonstration program *)

(** C4, as the code has it.  On "This is a demo." the acceptor
    [EndsBefore('m', All())] returns true at the indices 0 to 11, the prefix
    "This is a de", and false at index 12, the first ['m']; [main] reports
    "This is a dem" as consumed and "o." as remaining. *)
Theorem demo_rejects_at_12 :
  let src := "This is a demo."%string in
  drive (EndsBefore (rune_of "m") All) (firstn 13 (runes_of src)) =
  repeat (Ok true) 12 ++ [Ok false] /\
  nth_error (range_string src) 12 = Some (12%nat, rune_of "m") /\
  slice_to src 12 = "This is a de"%string /\
  main =
  Ok (map (fun '(i, rn) => Accepted rn i) (firstn 12 (range_string src)) ++
      [Rejected (rune_of "m") 12 "This is a dem" "o."]).
Proof. repeat split. Qed.

(** C4, as the claim has it, fails: index 11 of "This is a demo." holds
    ['e'], which is accepted, and the report of [main] is not the one the
    claim gives. *)
Lemma demo_index_11_counterexample :
  let src := "This is a demo."%string in
  nth_error (runes_of src) 11 = Some (rune_of "e") /\
  nth_error (drive (EndsBefore (rune_of "m") All) (runes_of src)) 11
  = Some (Ok true) /\
  forall reports,
    main <> Ok (reports ++ [Rejected (rune_of "m") 11 "This is a dm" "o."]).
Proof.
  repeat split. intros reports H. vm_compute in H. injection H as H.
  do 12 (destruct reports as [|? reports]; [discriminate H|];
         injection H as _ H).
  destruct reports as [|? [|? ?]]; discriminate H.
Qed.

(** ** FirstOf *)

Lemma firstof_loop_none (rn : rune) (accs : list Acceptor) :
  Forall (fun a => exists a', call a rn = Ok (false, a')) accs ->
  firstof_loop call rn accs = Ok (false, None).
Proof.
  induction 1 as [|a accs [a' Ha] _ IH]; [reflexivity|].
  cbn [firstof_loop]. rewrite Ha. exact IH.
Qed.

(** C1, on the code.  When no component accepts the first character,
    [FirstOf] returns false and stores the nil continuation; the next call
    calls that nil function and panics, where the claim has it return
    false. *)
Theorem FirstOf_no_match_then_nil_call
  (accs : list Acceptor) (rn next : rune) :
  Forall (fun a => exists a', call a rn = Ok (false, a')) accs ->
  call (FirstOf accs) rn = Ok (false, StateFn NilState) /\
  drive (FirstOf accs) [rn; next] = [Ok false; Panic NilCall].
Proof.
  intro H. unfold FirstOf.
  assert (E : call (StateFn (FirstOfInternal accs)) rn
              = Ok (false, StateFn NilState)).
  { cbn [call call_state]. rewrite (firstof_loop_none rn accs H).
    reflexivity. }
  split; [exact E|]. cbn [drive]. rewrite E. reflexivity.
Qed.

Lemma FirstOf_no_match_then_nil_call_witness :
  let a := rune_of "a" in
  let b := rune_of "b" in
  let c := rune_of "c" in
  drive (FirstOf [AccRune a; AccRune b]) [c; a] = [Ok false; Panic NilCall].
Proof.
  intros a b c.
  apply (FirstOf_no_match_then_nil_call [AccRune a; AccRune b] c a).
  repeat constructor; eexists; reflexivity.
Defined.

(** * Further properties of the combinators *)

(** ** Chain *)

(** What one pass of the loop does to the cursor and to the slice: the
    cursor does not move back and stays within the slice, whose length is
    kept; a false answer means that the cursor has reached the end. *)
Lemma chain_loop_cursor (rn : rune) (accs : list Acceptor) :
  forall i out j accs',
  (i <= length accs)%nat ->
  chain_loop call rn i accs = Ok (out, (j, accs')) ->
  length accs' = length accs /\ (i <= j <= length accs)%nat /\
  (out = false -> j = length accs) /\ (out = true -> (j < length accs)%nat).
Proof.
  induction accs as [|a accs IH]; intros i out j accs' Hi H.
  - destruct i; [|inversion Hi]. simpl in H. injection H as <- <- <-.
    repeat split; try reflexivity; try discriminate.
  - destruct i as [|i].
    + cbn [chain_loop] in H.
      destruct (call a rn) as [[[|] a']|f]; cbn [bind] in H;
        try discriminate.
      * injection H as <- <- <-. cbn [length].
        repeat split; try lia; discriminate.
      * destruct (chain_loop call rn 0 accs) as [[o [k r]]|f] eqn:E;
          cbn [bind] in H; [|discriminate].
        injection H as <- <- <-.
        destruct (IH 0%nat o k r ltac:(lia) E) as (Hl & Hk & Hf & Ht).
        cbn [length]. repeat split; try lia.
        -- intro Ho. rewrite (Hf Ho). reflexivity.
        -- intro Ho. specialize (Ht Ho). lia.
    + cbn [chain_loop] in H.
      destruct (chain_loop call rn i accs) as [[o [k r]]|f] eqn:E;
        cbn [bind] in H; [|discriminate].
      injection H as <- <- <-. cbn [length] in *.
      destruct (IH i o k r ltac:(lia) E) as (Hl & Hk & Hf & Ht).
      repeat split; try lia.
      * intro Ho. rewrite (Hf Ho). reflexivity.
      * intro Ho. specialize (Ht Ho). lia.
Qed.

(** The closure that a stream leaves behind a chain is a chain over as many
    stages, with its cursor within them. *)
Lemma chain_after (pre : list rune) : forall i accs t,
  (i <= length accs)%nat ->
  after (ChainFn i accs) pre = Some t ->
  exists j accs',
    t = ChainFn j accs' /\ length accs' = length accs /\
    (i <= j <= length accs)%nat.
Proof.
  induction pre as [|rn pre IH]; intros i accs t Hi H.
  - simpl in H. injection H as <-. exists i, accs. repeat split; lia.
  - cbn [after] in H. rewrite call_chain in H.
    destruct (chain_loop call rn i accs) as [[o [k r]]|f] eqn:E;
      cbn [bind] in H; [|discriminate].
    destruct (chain_loop_cursor rn accs i o k r Hi E) as (Hl & Hk & _ & _).
    destruct (IH k r t ltac:(lia) H) as (j & accs' & -> & Hl' & Hj).
    exists j, accs'. repeat split; lia.
Qed.

(** Once a chain has returned false it returns false for good: the cursor
    is past the last stage and no stage is called any more. *)
Theorem Chain_rejection_is_permanent
  (accs : list Acceptor) (pre : list rune) (t : Acceptor) (rn : rune)
  (t' : Acceptor) :
  after (Chain accs) pre = Some t ->
  call t rn = Ok (false, t') ->
  forall rns, drive t' rns = repeat (Ok false) (length rns).
Proof.
  intros Hafter Hcall rns.
  destruct (chain_after pre 0%nat accs t ltac:(lia) Hafter)
    as (j & accs' & -> & Hl & Hj).
  rewrite call_chain in Hcall.
  destruct (chain_loop call rn j accs') as [[o [k r]]|f] eqn:E;
    cbn [bind] in Hcall; [|discriminate].
  injection Hcall as -> <-.
  destruct (chain_loop_cursor rn accs' j false k r ltac:(lia) E)
    as (Hr & _ & Hk & _).
  rewrite (Hk eq_refl), <- Hr. apply chain_pinned.
Qed.

Lemma Chain_rejection_is_permanent_witness :
  let x := rune_of "x" in
  let y := rune_of "y" in
  drive (ChainFn 2 [AccRune x; AccRune y]) [x; y] = [Ok false; Ok false].
Proof.
  intros x y.
  apply (Chain_rejection_is_permanent [AccRune x; AccRune y] [x; y]
           (ChainFn 1 [AccRune x; AccRune y]) x
           (ChainFn 2 [AccRune x; AccRune y]));
    reflexivity.
Defined.

(** A stage that the cursor has passed plays no part any more. *)
Lemma chain_passed (x : Acceptor) (rns : list rune) : forall i accs,
  drive (ChainFn (S i) (x :: accs)) rns = drive (ChainFn i accs) rns.
Proof.
  induction rns as [|rn rns IH]; intros i accs; [reflexivity|].
  cbn [drive]. rewrite !call_chain. cbn [chain_loop].
  destruct (chain_loop call rn i accs) as [[o [k r]]|f]; cbn [bind];
    [|reflexivity].
  now rewrite IH.
Qed.

(** A chain, stage by stage: while its first stage accepts, the chain
    answers true and stays on it; the first character that the stage
    rejects is put to the chain of the remaining stages, which takes over;
    a panic of the stage is the chain's. *)
Theorem Chain_first_stage
  (a : Acceptor) (rest : list Acceptor) (rn : rune) (rns : list rune) :
  drive (Chain (a :: rest)) (rn :: rns) =
  match call a rn with
  | Ok (true, a') => Ok true :: drive (Chain (a' :: rest)) rns
  | Ok (false, _) => drive (Chain rest) (rn :: rns)
  | Panic f => [Panic f]
  end.
Proof.
  unfold Chain. cbn [drive]. rewrite !call_chain. cbn [chain_loop].
  destruct (call a rn) as [[[|] a']|f]; cbn [bind]; try reflexivity.
  destruct (chain_loop call rn 0 rest) as [[o [k r]]|f]; cbn [bind];
    [|reflexivity].
  now rewrite chain_passed.
Qed.

(** A chain of no stages rejects every character. *)
Theorem Chain_empty (rns : list rune) :
  drive (Chain []) rns = repeat (Ok false) (length rns).
Proof. apply (chain_pinned []). Qed.

(** ** FirstOf *)

Lemma firstof_loop_commit (rn : rune) (pre : list Acceptor) :
  forall acc post acc',
  Forall (fun a => rejects a rn) pre ->
  call acc rn = Ok (true, acc') ->
  firstof_loop call rn (pre ++ acc :: post) = Ok (true, Some acc').
Proof.
  induction pre as [|p pre IH]; intros acc post acc' Hpre Hacc.
  - cbn [app firstof_loop]. rewrite Hacc. reflexivity.
  - inversion Hpre as [|? ? [p' Hp] Hpre']; subst.
    cbn [app firstof_loop]. rewrite Hp. cbn [bind]. now apply IH.
Qed.

(** [FirstOf] commits on the first character: the first acceptor, in the
    order of the arguments, that accepts it answers every later character,
    going on from where that call left it.  The arguments after it are never
    called, and the ones before it never again. *)
Theorem FirstOf_commits_to_first_match
  (pre : list Acceptor) (acc : Acceptor) (post : list Acceptor)
  (rn : rune) (acc' : Acceptor) (rns : list rune) :
  Forall (fun a => rejects a rn) pre ->
  call acc rn = Ok (true, acc') ->
  drive (FirstOf (pre ++ acc :: post)) (rn :: rns) =
  Ok true :: drive acc' rns.
Proof.
  intros Hpre Hacc. unfold FirstOf. cbn [drive call call_state].
  rewrite (firstof_loop_commit rn pre acc post acc' Hpre Hacc).
  cbn [bind]. f_equal. apply (statify_drive rns acc').
Qed.

Lemma FirstOf_commits_to_first_match_witness :
  let a := rune_of "a" in
  let b := rune_of "b" in
  drive (FirstOf ([AccRune a] ++ Truncate 2 (AccRune b) :: [All]))
    [b; b; b; a] =
  Ok true :: drive (TruncateFn 2 1 (AccRune b)) [b; b; a].
Proof.
  intros a b.
  apply (FirstOf_commits_to_first_match [AccRune a] (Truncate 2 (AccRune b))
           [All] b (TruncateFn 2 1 (AccRune b)) [b; b; a]).
  - repeat constructor. eexists. reflexivity.
  - reflexivity.
Defined.

(** ** Branch *)

(** A character that is a key of [mapping] is accepted without asking
    anyone, and the acceptor stored under it answers the rest of the stream
    from its start.  The table is looked at for the first character only. *)
Theorem Branch_on_key
  (mapping : rune -> option Acceptor) (alt next : Acceptor)
  (rn : rune) (rns : list rune) :
  mapping rn = Some next ->
  drive (Branch mapping alt) (rn :: rns) = Ok true :: drive next rns.
Proof.
  intro H. unfold Branch. cbn [drive call call_state]. rewrite H.
  cbn [bind]. f_equal. apply (statify_drive rns next).
Qed.

Lemma Branch_on_key_witness :
  let a := rune_of "a" in
  let b := rune_of "b" in
  let mapping := fun rn : rune => if rn =? a then Some (AccRune b) else None in
  drive (Branch mapping All) [a; a; b] = Ok true :: drive (AccRune b) [a; b].
Proof.
  intros a b mapping.
  apply (Branch_on_key mapping All (AccRune b) a [a; b]). reflexivity.
Defined.

(** A first character that is no key of [mapping] goes to [alt], and so
    does the rest of the stream: the branch answers as [alt] alone. *)
Theorem Branch_off_key
  (mapping : rune -> option Acceptor) (alt : Acceptor)
  (rn : rune) (rns : list rune) :
  mapping rn = None ->
  drive (Branch mapping alt) (rn :: rns) = drive alt (rn :: rns).
Proof.
  intro H. unfold Branch. cbn [drive call call_state]. rewrite H.
  destruct (call alt rn) as [[b alt']|f]; cbn [bind]; [|reflexivity].
  f_equal. apply (statify_drive rns alt').
Qed.

Lemma Branch_off_key_witness :
  let a := rune_of "a" in
  let b := rune_of "b" in
  let mapping := fun rn : rune => if rn =? a then Some (AccRune b) else None in
  drive (Branch mapping (AccRune b)) [b; a; b] = drive (AccRune b) [b; a; b].
Proof.
  intros a b mapping.
  apply (Branch_off_key mapping (AccRune b) b [a; b]). reflexivity.
Defined.

(** ** Panics through the combinators *)

(** No combinator swallows the panic of an acceptor that it calls: when the
    wrapped acceptor panics on a character, so does the combinator, with the
    same failure. *)
Theorem panic_goes_through
  (acc : Acceptor) (rn : rune) (f : failure) :
  call acc rn = Panic f ->
  (forall max, 0 < max -> call (Truncate max acc) rn = Panic f) /\
  (forall delim, rn <> delim -> call (EndsBefore delim acc) rn = Panic f) /\
  (forall delim, rn <> delim -> call (EndsWith delim acc) rn = Panic f) /\
  (forall rest, call (Chain (acc :: rest)) rn = Panic f) /\
  (forall rest, call (FirstOf (acc :: rest)) rn = Panic f) /\
  (forall mapping, mapping rn = None ->
                   call (Branch mapping acc) rn = Panic f) /\
  (forall err, call (AssertStart acc err) rn = Panic f) /\
  (forall most err, call (AssertAtMost acc most err) rn = Panic f) /\
  call (StateFn (statify acc)) rn = Panic f.
Proof.
  intro H. repeat split.
  - intros max Hmax. unfold Truncate. cbn [call].
    destruct (Z.ltb_spec 0 max); [|lia]. rewrite H. reflexivity.
  - intros delim Hd. unfold EndsBefore. cbn [call].
    apply Z.eqb_neq in Hd. rewrite Hd, H. reflexivity.
  - intros delim Hd. unfold EndsWith. cbn [call].
    apply Z.eqb_neq in Hd. rewrite Hd, H. reflexivity.
  - intro rest. unfold Chain. rewrite call_chain. cbn [chain_loop].
    rewrite H. reflexivity.
  - intro rest. unfold FirstOf. cbn [call call_state firstof_loop].
    rewrite H. reflexivity.
  - intros mapping Hm. unfold Branch. cbn [call call_state].
    rewrite Hm, H. reflexivity.
  - intro err. unfold AssertStart. cbn [call call_state].
    rewrite H. reflexivity.
  - intros most err. unfold AssertAtMost. cbn [call]. rewrite H. reflexivity.
  - rewrite call_statify, H. reflexivity.
Qed.

Lemma panic_goes_through_witness :
  call (Chain [Truncate 3 NilAcceptor; All]) (rune_of "a") = Panic NilCall.
Proof.
  destruct (panic_goes_through (Truncate 3 NilAcceptor) (rune_of "a") NilCall)
    as (_ & _ & _ & H & _).
  - destruct (panic_goes_through NilAcceptor (rune_of "a") NilCall eq_refl)
      as (H & _).
    apply H. lia.
  - apply H.
Defined.

(** An assertion inside a chain or an alternation is no alternative that
    may fail: when the acceptor under [AssertStart] rejects the first
    character, [Chain] does not fall through to its next stage and [FirstOf]
    does not try its next argument; both panic with the payload. *)
Theorem AssertStart_aborts_composition
  (acc : Acceptor) (err : error) (rest : list Acceptor) (rn : rune) :
  rejects acc rn ->
  call (Chain (AssertStart acc err :: rest)) rn = Panic (UserPanic err) /\
  call (FirstOf (AssertStart acc err :: rest)) rn = Panic (UserPanic err).
Proof.
  intros [acc' H].
  assert (E : call (AssertStart acc err) rn = Panic (UserPanic err))
    by (rewrite call_AssertStart, H; reflexivity).
  split.
  - unfold Chain. rewrite call_chain. cbn [chain_loop]. rewrite E.
    reflexivity.
  - unfold FirstOf. cbn [call call_state firstof_loop].
    fold (AssertStart acc err). rewrite E. reflexivity.
Qed.

Lemma AssertStart_aborts_composition_witness :
  let err := Some "digit expected"%string in
  call (Chain [AssertStart (AccRunes [48; 49]) err; All]) (rune_of "a")
  = Panic (UserPanic err) /\
  call (FirstOf [AssertStart (AccRunes [48; 49]) err; All]) (rune_of "a")
  = Panic (UserPanic err).
Proof.
  intro err.
  apply (AssertStart_aborts_composition (AccRunes [48; 49]) err [All]
           (rune_of "a")).
  eexists. reflexivity.
Defined.

(** ** AssertAtMost *)

Lemma call_atmost_below
  (acc : Acceptor) (most count : Z) (err : error) (rn : rune) :
  in_int most -> 0 <= count < most ->
  call (AssertAtMostFn acc most count err) rn =
  ('(b, acc') <- call acc rn ;;
   if b then Ok (true, AssertAtMostFn acc' most (count + 1) err)
   else Ok (false, AssertAtMostFn acc' most count err)).
Proof.
  intros Hmost Hc. cbn [call].
  destruct (call acc rn) as [[[|] acc']|f]; cbn [bind]; try reflexivity.
  destruct (Z.eqb_spec count most); [lia|].
  rewrite (incr_below most) by assumption. reflexivity.
Qed.

Lemma call_atmost_ceiling
  (acc : Acceptor) (most : Z) (err : error) (rn : rune) :
  call (AssertAtMostFn acc most most err) rn =
  ('(b, acc') <- call acc rn ;;
   if b then Panic (UserPanic err)
   else Ok (false, AssertAtMostFn acc' most most err)).
Proof.
  cbn [call].
  destruct (call acc rn) as [[[|] acc']|f]; cbn [bind]; try reflexivity.
  rewrite Z.eqb_refl. reflexivity.
Qed.

(** While the wrapped acceptor has accepted no more than [most] characters,
    the answers are its own. *)
Lemma atmost_within (most : Z) (err : error) (rns : list rune) :
  in_int most -> forall count acc,
  0 <= count ->
  count + Z.of_nat (accepted (drive acc rns)) <= most ->
  drive (AssertAtMostFn acc most count err) rns = drive acc rns.
Proof.
  intro Hmost. induction rns as [|rn rns IH]; intros count acc Hc H;
    [reflexivity|].
  cbn [drive] in *.
  destruct (Z.eq_dec count most) as [->|Hne].
  - rewrite call_atmost_ceiling.
    destruct (call acc rn) as [[[|] acc']|f]; cbn [bind accepted] in *.
    + lia.
    + f_equal. apply IH; lia.
    + reflexivity.
  - assert (count < most)
      by (pose proof (Nat2Z.is_nonneg (accepted
            match call acc rn with
            | Ok (b, a') => Ok b :: drive a' rns
            | Panic f => [Panic f]
            end)); lia).
    rewrite call_atmost_below by (assumption || lia).
    destruct (call acc rn) as [[[|] acc']|f]; cbn [bind accepted] in *.
    + f_equal. apply IH; lia.
    + f_equal. apply IH; lia.
    + reflexivity.
Qed.

(** The acceptance that would be one too many panics. *)
Lemma atmost_exceeded (most : Z) (err : error) (pre : list rune) (rn : rune) :
  in_int most -> forall count acc a a',
  0 <= count ->
  count + Z.of_nat (accepted (drive acc pre)) = most ->
  after acc pre = Some a ->
  call a rn = Ok (true, a') ->
  drive (AssertAtMostFn acc most count err) (pre ++ [rn]) =
  drive acc pre ++ [Panic (UserPanic err)].
Proof.
  intro Hmost. induction pre as [|p pre IH];
    intros count acc a a' Hc Hfull Hafter Hcall.
  - simpl in Hafter, Hfull. injection Hafter as <-.
    assert (count = most) as -> by lia.
    cbn [app drive]. rewrite call_atmost_ceiling, Hcall. reflexivity.
  - cbn [app drive after accepted] in *.
    destruct (Z.eq_dec count most) as [->|Hne].
    + rewrite call_atmost_ceiling.
      destruct (call acc p) as [[[|] acc']|f]; cbn [bind accepted] in *;
        try discriminate.
      * lia.
      * cbn [app]. f_equal. apply (IH most acc' a a'); assumption || lia.
    + assert (count < most)
        by (pose proof (Nat2Z.is_nonneg (accepted
              match call acc p with
              | Ok (b, a'') => Ok b :: drive a'' pre
              | Panic f => [Panic f]
              end)); lia).
      rewrite call_atmost_below by (assumption || lia).
      destruct (call acc p) as [[[|] acc']|f]; cbn [bind accepted] in *;
        try discriminate.
      * cbn [app]. f_equal. apply (IH (count + 1) acc' a a'); assumption || lia.
      * cbn [app]. f_equal. apply (IH count acc' a a'); assumption || lia.
Qed.

(** [AssertAtMost(acc, most, err)] with [most >= 0] is [acc] itself for as
    long as [acc] has accepted no more than [most] characters, rejections
    after the [most]-th acceptance included; the acceptance after the
    [most]-th panics with the payload. *)
Theorem AssertAtMost_ceiling
  (acc : Acceptor) (most : Z) (err : error) :
  in_int most -> 0 <= most ->
  (forall rns,
     Z.of_nat (accepted (drive acc rns)) <= most ->
     drive (AssertAtMost acc most err) rns = drive acc rns) /\
  (forall pre rn a a',
     Z.of_nat (accepted (drive acc pre)) = most ->
     after acc pre = Some a ->
     call a rn = Ok (true, a') ->
     drive (AssertAtMost acc most err) (pre ++ [rn]) =
     drive acc pre ++ [Panic (UserPanic err)]).
Proof.
  intros Hmost Hpos. unfold AssertAtMost. split.
  - intros rns H. apply atmost_within; assumption || lia.
  - intros pre rn a a' Hfull Hafter Hcall.
    apply (atmost_exceeded most err pre rn Hmost 0 acc a a');
      assumption || lia.
Qed.

Lemma AssertAtMost_ceiling_witness :
  let x := rune_of "x" in
  let y := rune_of "y" in
  let err := Some "too many"%string in
  drive (AssertAtMost (AccRune x) 2 err) ([x; y; x; y] ++ [x]) =
  drive (AccRune x) [x; y; x; y] ++ [Panic (UserPanic err)].
Proof.
  intros x y err.
  destruct (AssertAtMost_ceiling (AccRune x) 2 err) as [_ H];
    [int_range|lia|].
  apply (H [x; y; x; y] x (AccRune x) (AccRune x)); reflexivity.
Defined.

(** ** Truncate and Skip at their edges *)

Lemma truncate_all (max : Z) (rns : list rune) :
  in_int max -> forall count,
  0 <= count ->
  drive (TruncateFn max count All) rns =
  repeat (Ok true) (Nat.min (Z.to_nat (max - count)) (length rns)) ++
  repeat (Ok false) (length rns - Z.to_nat (max - count)).
Proof.
  intro Hmax. induction rns as [|rn rns IH]; intros count Hc.
  - rewrite Nat.min_0_r. reflexivity.
  - cbn [drive]. destruct (Z.lt_ge_cases count max) as [Hlt|Hge].
    + rewrite call_truncate_below by (assumption || lia).
      cbn [All call bind]. rewrite IH by lia.
      replace (Z.to_nat (max - count))
        with (S (Z.to_nat (max - (count + 1)))) by lia.
      reflexivity.
    + rewrite call_truncate_ceiling by assumption.
      rewrite truncate_ceiling by assumption.
      replace (Z.to_nat (max - count)) with 0%nat by lia.
      reflexivity.
Qed.

(** [Truncate(max, All())] accepts the first [max] characters of a stream
    and rejects the others; with [max <= 0] it accepts none. *)
Theorem Truncate_All_takes_max (max : Z) (rns : list rune) :
  in_int max ->
  drive (Truncate max All) rns =
  repeat (Ok true) (Nat.min (Z.to_nat max) (length rns)) ++
  repeat (Ok false) (length rns - Z.to_nat max).
Proof.
  intro Hmax. unfold Truncate. rewrite truncate_all by (assumption || lia).
  rewrite Z.sub_0_r. reflexivity.
Qed.

Lemma Truncate_All_takes_max_witness :
  drive (Truncate 2 All) [7; 8; 9] = [Ok true; Ok true; Ok false].
Proof. apply (Truncate_All_takes_max 2 [7; 8; 9]). int_range. Defined.

(** With a ceiling of zero or less the wrapped acceptor is never called,
    so that not even a nil acceptor makes the truncation panic. *)
Theorem Truncate_nonpositive (max : Z) (acc : Acceptor) (rns : list rune) :
  max <= 0 ->
  drive (Truncate max acc) rns = repeat (Ok false) (length rns).
Proof. intro H. apply truncate_ceiling. assumption. Qed.

Lemma Truncate_nonpositive_witness :
  drive (Truncate 0 NilAcceptor) [1; 2] = [Ok false; Ok false].
Proof. apply (Truncate_nonpositive 0 NilAcceptor [1; 2]). lia. Defined.

(** [Skip] with a count of zero or less skips nothing: it is the chain of
    [acc] alone. *)
Theorem Skip_nonpositive (n : Z) (acc : Acceptor) (rns : list rune) :
  n <= 0 ->
  drive (Skip n acc) rns = drive (Chain [acc]) rns.
Proof.
  intro Hn. unfold Skip, Truncate, Chain.
  destruct rns as [|rn rns]; [reflexivity|].
  cbn [drive]. rewrite call_skip_done by assumption.
  rewrite call_chain. cbn [chain_loop].
  destruct (call acc rn) as [[[|] a']|f]; cbn [bind]; try reflexivity.
  - f_equal. apply (chain_passed _ rns 0%nat [a']).
  - f_equal. rewrite (chain_pinned [_; a']). symmetry.
    apply (chain_pinned [a']).
Qed.

Lemma Skip_nonpositive_witness :
  drive (Skip (-3) (AccRune 5)) [5; 6; 5] = drive (Chain [AccRune 5]) [5; 6; 5].
Proof. apply (Skip_nonpositive (-3) (AccRune 5) [5; 6; 5]). lia. Defined.

(** ** EndsBefore and EndsWith over any acceptor *)

(** [EndsBefore] keeps the delimiter away from the wrapped acceptor: every
    delimiter is answered false, and the answers to the other characters are
    those of [acc] on the stream without its delimiters. *)
Theorem EndsBefore_hides_delimiter (delim : rune) (rns : list rune) :
  forall acc,
  off_delim delim rns (drive (EndsBefore delim acc) rns) =
  drive acc (filter (fun rn => negb (rn =? delim)) rns) /\
  Forall (eq (Ok false)) (on_delim delim rns (drive (EndsBefore delim acc) rns)).
Proof.
  unfold EndsBefore.
  induction rns as [|rn rns IH]; intro acc; [split; constructor|].
  cbn [drive call filter off_delim on_delim].
  destruct (rn =? delim) eqn:E; cbn [negb].
  - destruct (IH acc) as [H1 H2]. split; [exact H1|].
    constructor; [reflexivity|exact H2].
  - cbn [drive]. destruct (call acc rn) as [[b acc']|f]; cbn [bind].
    + destruct (IH acc') as [H1 H2]. split; [now rewrite H1|exact H2].
    + destruct rns; split; constructor.
Qed.

(** On a stream without the delimiter [EndsWith] is the wrapped acceptor. *)
Theorem EndsWith_without_delimiter (delim : rune) (rns : list rune) :
  forall acc,
  ~ In delim rns ->
  drive (EndsWith delim acc) rns = drive acc rns.
Proof.
  unfold EndsWith.
  induction rns as [|rn rns IH]; intros acc Hnot; [reflexivity|].
  cbn [drive call].
  assert (E : (rn =? delim) = false)
    by (apply Z.eqb_neq; intros ->; apply Hnot; left; reflexivity).
  rewrite E.
  destruct (call acc rn) as [[b acc']|f]; cbn [bind]; [|reflexivity].
  f_equal. apply IH. intro H. apply Hnot. right. exact H.
Qed.

Lemma EndsWith_without_delimiter_witness :
  drive (EndsWith 59 (Truncate 1 All)) [1; 2] = drive (Truncate 1 All) [1; 2].
Proof.
  apply (EndsWith_without_delimiter 59 [1; 2] (Truncate 1 All)).
  intros [H|[H|[]]]; discriminate H.
Defined.

(** ** The acceptors of Acc *)

Lemma among_In (rn : rune) (spec : list rune) :
  among rn spec = true <-> In rn spec.
Proof.
  induction spec as [|ex spec IH]; cbn [among In].
  - split; [discriminate|contradiction].
  - destruct (Z.eqb_spec rn ex) as [->|Hne].
    + split; auto.
    + rewrite IH. split; [auto|]. intros [H|H]; [congruence|exact H].
Qed.

(** The acceptor made from a slice of runes answers every character of
    every stream, true exactly for the members of the slice, whatever came
    before; the one made from the empty slice rejects everything. *)
Theorem Acc_runes_is_membership (spec : list rune) (rns : list rune) :
  Forall2 (fun rn answer =>
             exists b, answer = Ok b /\ (b = true <-> In rn spec))
          rns (drive (Acc (IRunes spec)) rns).
Proof.
  induction rns as [|rn rns IH]; [constructor|].
  cbn [Acc drive call]. constructor; [|exact IH].
  exists (among rn spec). split; [reflexivity|apply among_In].
Qed.

(** What the type switch does not know yields the nil acceptor, and the
    first call of it panics. *)
Theorem Acc_unrecognized_panics
  (spec : interface) (rn : rune) (rns : list rune) :
  recognized spec = false ->
  drive (Acc spec) (rn :: rns) = [Panic NilCall].
Proof. destruct spec; intro H; try discriminate H; reflexivity. Qed.

Lemma Acc_unrecognized_panics_witness :
  drive (Acc (IFunc All)) [1; 2] = [Panic NilCall].
Proof. apply (Acc_unrecognized_panics (IFunc All) 1 [2]). reflexivity. Defined.

(** ** Ranging over a string *)

Lemma range_bytes_ascii (bs : list Z) : forall fuel i,
  Forall (fun b => b < 128) bs ->
  (length bs <= fuel)%nat ->
  range_bytes fuel i bs = combine (seq i (length bs)) bs.
Proof.
  induction bs as [|b bs IH]; intros fuel i Hascii Hfuel.
  - destruct fuel; reflexivity.
  - destruct fuel as [|fuel]; [inversion Hfuel|].
    inversion Hascii as [|? ? Hb Hbs]; subst.
    cbn [range_bytes decode_rune length seq combine].
    destruct (Z.ltb_spec b 128); [|lia].
    cbn [skipn]. rewrite IH by (assumption || cbn [length] in Hfuel; lia).
    replace (i + 1)%nat with (S i) by lia. reflexivity.
Qed.

Lemma length_bytes_of (s : string) : length (bytes_of s) = String.length s.
Proof.
  unfold bytes_of. rewrite length_map.
  induction s as [|c s IH]; [reflexivity|]. cbn. now rewrite IH.
Qed.

Lemma map_snd_combine_seq (bs : list Z) : forall i,
  map snd (combine (seq i (length bs)) bs) = bs.
Proof.
  induction bs as [|b bs IH]; intro i; [reflexivity|].
  cbn. now rewrite IH.
Qed.

(** Over a string of ASCII bytes the [range] loop yields each byte as a rune
    at its own offset, and the acceptor made from the string accepts
    exactly the runes that are among its bytes. *)
Theorem Acc_string_ascii (s : string) :
  Forall (fun b => b < 128) (bytes_of s) ->
  range_string s = combine (seq 0 (String.length s)) (bytes_of s) /\
  forall rn, exists b,
    call (Acc (IString s)) rn = Ok (b, Acc (IString s)) /\
    (b = true <-> In rn (bytes_of s)).
Proof.
  intro Hascii.
  assert (E : range_string s = combine (seq 0 (String.length s)) (bytes_of s)).
  { unfold range_string. rewrite range_bytes_ascii.
    - now rewrite length_bytes_of.
    - assumption.
    - rewrite length_bytes_of. lia. }
  split; [exact E|].
  intro rn. exists (among rn (runes_of s)). split; [reflexivity|].
  rewrite among_In. unfold runes_of. rewrite E, <- length_bytes_of.
  rewrite map_snd_combine_seq. reflexivity.
Qed.

Lemma Acc_string_ascii_witness :
  range_string "ab" = [(0%nat, 97); (1%nat, 98)] /\
  forall rn, exists b,
    call (Acc (IString "ab")) rn = Ok (b, Acc (IString "ab")) /\
    (b = true <-> In rn [97; 98]).
Proof.
  apply (Acc_string_ascii "ab"). vm_compute. repeat constructor.
Defined.

(** ** The loop of the demonstration program *)

(** The loop stops at the first character that the acceptor rejects: the
    characters before it are reported as accepted, the rejection is reported
    with the source cut after the offset of the rejected character, and the
    characters after it are not looked at.  When nothing is rejected,
    every character is reported as accepted. *)
Theorem main_loop_stops_at_first_rejection
  (acceptor : Acceptor) (src : string) (pre : list (nat * rune)) :
  (forall i rn post,
     drive acceptor (map snd pre ++ [rn]) =
     repeat (Ok true) (length pre) ++ [Ok false] ->
     main_loop acceptor src (pre ++ (i, rn) :: post) =
     Ok (map (fun '(j, r) => Accepted r j) pre ++
         [Rejected rn i (slice_to src (i + 1)) (slice_from src (i + 1))])) /\
  (drive acceptor (map snd pre) = repeat (Ok true) (length pre) ->
   main_loop acceptor src pre = Ok (map (fun '(j, r) => Accepted r j) pre)).
Proof.
  revert acceptor. induction pre as [|[j r] pre IH]; intro acceptor.
  - split.
    + intros i rn post H. cbn in H. cbn [app main_loop map].
      destruct (call acceptor rn) as [[[|] a']|f]; try discriminate.
      reflexivity.
    + reflexivity.
  - split.
    + intros i rn post H. cbn [map snd app drive length repeat] in H.
      cbn [app main_loop map].
      destruct (call acceptor r) as [[[|] a']|f]; try discriminate.
      injection H as H. cbn [bind negb].
      rewrite (proj1 (IH a') i rn post H). reflexivity.
    + intro H. cbn [map snd drive length repeat] in H.
      cbn [main_loop map].
      destruct (call acceptor r) as [[[|] a']|f]; try discriminate.
      injection H as H. cbn [bind negb].
      rewrite (proj2 (IH a') H). reflexivity.
Qed.

Lemma main_loop_stops_at_first_rejection_witness :
  main_loop (AccRune 97) "aab" ([(0%nat, 97); (1%nat, 97)] ++ [(2%nat, 98)]) =
  Ok ([Accepted 97 0; Accepted 97 1] ++ [Rejected 98 2 "aab" ""]).
Proof.
  apply (proj1 (main_loop_stops_at_first_rejection (AccRune 97) "aab"
                  [(0%nat, 97); (1%nat, 97)]) 2%nat 98 []).
  reflexivity.
Defined.

(** Every encoding takes at least one byte and no more than there are. *)
Lemma decode_rune_size (b : Z) (bs : list Z) :
  (1 <= snd (decode_rune (b :: bs)) <= length (b :: bs))%nat.
Proof.
  unfold decode_rune.
  repeat match goal with
         | |- context [match ?x with _ => _ end] => destruct x
         end; cbn [snd length]; lia.
Qed.

(** The offsets of a [range] loop lie within the bytes. *)
Lemma range_bytes_offsets (fuel : nat) : forall i bs k rn,
  In (k, rn) (range_bytes fuel i bs) -> (i <= k < i + length bs)%nat.
Proof.
  induction fuel as [|fuel IH]; intros i bs k rn H; [contradiction|].
  destruct bs as [|b bs]; [contradiction|].
  cbn [range_bytes] in H.
  pose proof (decode_rune_size b bs) as Hsize.
  destruct (decode_rune (b :: bs)) as [r size]. cbn [snd] in Hsize.
  destruct H as [H|H].
  - injection H as <- _. lia.
  - apply IH in H. rewrite length_skipn in H. lia.
Qed.

Lemma substring_whole (s : string) : substring 0 (String.length s) s = s.
Proof. induction s as [|c s IH]; [reflexivity|]. cbn. now rewrite IH. Qed.

Lemma slice_partition (s : string) : forall j,
  (j <= String.length s)%nat ->
  (slice_to s j ++ slice_from s j)%string = s.
Proof.
  unfold slice_to, slice_from.
  induction s as [|c s IH]; intros [|j] Hj; try reflexivity.
  - cbn [substring String.length Nat.sub String.append].
    f_equal. apply substring_whole.
  - cbn [substring String.length Nat.sub String.append].
    f_equal. apply IH. cbn [String.length] in Hj. lia.
Qed.

Lemma main_loop_rejected (src : string) (items : list (nat * rune)) :
  forall acceptor reports rn i consumed remaining,
  main_loop acceptor src items = Ok reports ->
  In (Rejected rn i consumed remaining) reports ->
  In (i, rn) items /\
  consumed = slice_to src (i + 1) /\ remaining = slice_from src (i + 1).
Proof.
  induction items as [|[j r] items IH];
    intros acceptor reports rn i consumed remaining Hmain Hin.
  - injection Hmain as <-. contradiction.
  - cbn [main_loop] in Hmain.
    destruct (call acceptor r) as [[[|] a']|f]; cbn [bind negb] in Hmain;
      try discriminate.
    + destruct (main_loop a' src items) as [rs|f] eqn:E; cbn [bind] in Hmain;
        [|discriminate].
      injection Hmain as <-. destruct Hin as [Hin|Hin]; [discriminate|].
      destruct (IH a' rs rn i consumed remaining E Hin) as (H1 & H2 & H3).
      repeat split; [right|..]; assumption.
    + injection Hmain as <-. destruct Hin as [Hin|[]].
      injection Hin as <- <- <- <-. repeat split. left. reflexivity.
Qed.

(** Whatever the acceptor and the source, a rejection that the loop reports
    cuts the source in two: the consumed part followed by the remaining part
    is the source again. *)
Theorem main_loop_partitions_source
  (acceptor : Acceptor) (src : string) (reports : list report)
  (rn : rune) (i : nat) (consumed remaining : string) :
  main_loop acceptor src (range_string src) = Ok reports ->
  In (Rejected rn i consumed remaining) reports ->
  (consumed ++ remaining)%string = src.
Proof.
  intros Hmain Hin.
  destruct (main_loop_rejected src _ _ _ _ _ _ _ Hmain Hin)
    as (Hitem & -> & ->).
  apply range_bytes_offsets in Hitem. rewrite length_bytes_of in Hitem.
  apply slice_partition. lia.
Qed.

Lemma main_loop_partitions_source_witness :
  ("ab" ++ "c")%string = "abc"%string.
Proof.
  apply (main_loop_partitions_source (AccRune 97) "abc"
           [Accepted 97 0; Rejected 98 1 "ab" "c"] 98 1%nat "ab" "c").
  - reflexivity.
  - right. left. reflexivity.
Defined.

(** ** Combinators inside combinators *)

Lemma truncate_inner_ceiling (m n c c' : Z) (acc : Acceptor) (rns : list rune) :
  n <= c' ->
  drive (TruncateFn m c (TruncateFn n c' acc)) rns =
  repeat (Ok false) (length rns).
Proof.
  intro H. induction rns as [|rn rns IH]; [reflexivity|].
  cbn [drive length repeat].
  change (call (TruncateFn m c (TruncateFn n c' acc)) rn)
    with (if c <? m
          then '(b, a') <- call (TruncateFn n c' acc) rn ;;
               if b then Ok (true, TruncateFn m (incr c) a')
               else Ok (false, TruncateFn m c a')
          else Ok (false, TruncateFn m c (TruncateFn n c' acc))).
  rewrite call_truncate_ceiling by assumption.
  destruct (c <? m); cbn [bind]; now rewrite IH.
Qed.

Lemma truncate_nested (m n : Z) (rns : list rune) :
  in_int m -> in_int n -> forall c acc,
  0 <= c ->
  drive (TruncateFn m c (TruncateFn n c acc)) rns =
  drive (TruncateFn (Z.min m n) c acc) rns.
Proof.
  intros Hm Hn. induction rns as [|rn rns IH]; intros c acc Hc;
    [reflexivity|].
  assert (Hmin : in_int (Z.min m n))
    by (unfold in_int in *; lia).
  destruct (Z.lt_ge_cases c (Z.min m n)) as [Hlt|Hge].
  - cbn [drive].
    rewrite (call_truncate_below m) by (assumption || lia).
    rewrite (call_truncate_below n) by (assumption || lia).
    rewrite (call_truncate_below (Z.min m n)) by (assumption || lia).
    destruct (call acc rn) as [[[|] a']|f]; cbn [bind]; try reflexivity.
    + f_equal. apply IH. lia.
    + f_equal. apply IH. lia.
  - rewrite (truncate_ceiling (Z.min m n)) by assumption.
    destruct (Z.le_gt_cases n c).
    + apply truncate_inner_ceiling. assumption.
    + apply truncate_ceiling. lia.
Qed.

(** A truncation of a truncation is the truncation at the lower of the two
    ceilings. *)
Theorem Truncate_of_Truncate (m n : Z) (acc : Acceptor) (rns : list rune) :
  in_int m -> in_int n ->
  drive (Truncate m (Truncate n acc)) rns =
  drive (Truncate (Z.min m n) acc) rns.
Proof.
  intros Hm Hn. unfold Truncate. apply truncate_nested; assumption || lia.
Qed.

Lemma Truncate_of_Truncate_witness :
  drive (Truncate 3 (Truncate 1 All)) [1; 2; 3] =
  drive (Truncate (Z.min 3 1) All) [1; 2; 3].
Proof.
  apply (Truncate_of_Truncate 3 1 All [1; 2; 3]); int_range.
Defined.

(** The loop over two slices put end to end: first the loop over the first
    slice and, when that ends in false, the loop over the second from its
    start. *)
Lemma chain_loop_app (rn : rune) (ys : list Acceptor) (xs : list Acceptor) :
  forall i, (i <= length xs)%nat ->
  chain_loop call rn i (xs ++ ys) =
  match chain_loop call rn i xs with
  | Ok (true, (j, xs')) => Ok (true, (j, xs' ++ ys))
  | Ok (false, (j, xs')) =>
    '(out, (k, ys')) <- chain_loop call rn 0 ys ;;
    Ok (out, ((length xs + k)%nat, xs' ++ ys'))
  | Panic f => Panic f
  end.
Proof.
  induction xs as [|x xs IH]; intros i Hi.
  - destruct i; [|inversion Hi]. cbn [app chain_loop length Nat.add].
    destruct (chain_loop call rn 0 ys) as [[o [k r]]|f]; reflexivity.
  - destruct i as [|i]; cbn [app chain_loop length].
    + destruct (call x rn) as [[[|] x']|f]; cbn [bind]; try reflexivity.
      rewrite (IH 0%nat) by lia.
      destruct (chain_loop call rn 0 xs) as [[[|] [j xs']]|f]; cbn [bind];
        try reflexivity.
      destruct (chain_loop call rn 0 ys) as [[o [k r]]|f]; reflexivity.
    + rewrite (IH i) by (cbn [length] in Hi; lia).
      destruct (chain_loop call rn i xs) as [[[|] [j xs']]|f]; cbn [bind];
        try reflexivity.
      destruct (chain_loop call rn 0 ys) as [[o [k r]]|f]; reflexivity.
Qed.

Lemma chain_passed_many (xs ys : list Acceptor) (rns : list rune) (k : nat) :
  drive (ChainFn (length xs + k) (xs ++ ys)) rns = drive (ChainFn k ys) rns.
Proof.
  induction xs as [|x xs IH]; [reflexivity|].
  cbn [length app Nat.add]. rewrite chain_passed. exact IH.
Qed.

(** A chain, as a stage of another chain, needs no cutting short: its own
    first rejection is its last answer anyway. *)
Lemma until_reject_chain (rns : list rune) : forall k ys,
  (k <= length ys)%nat ->
  until_reject (ChainFn k ys) rns = drive (ChainFn k ys) rns.
Proof.
  induction rns as [|rn rns IH]; intros k ys Hk; [reflexivity|].
  cbn [until_reject drive]. rewrite call_chain.
  destruct (chain_loop call rn k ys) as [[o [j r]]|f] eqn:E; cbn [bind];
    [|reflexivity].
  destruct (chain_loop_cursor rn ys k o j r Hk E) as (Hl & Hj & Hf & Ht).
  destruct o.
  - f_equal. apply IH. lia.
  - f_equal. rewrite (Hf eq_refl), <- Hl. symmetry. apply chain_pinned.
Qed.

Lemma chain_of_chains (ys : list Acceptor) (rns : list rune) :
  forall i xs, (i <= length xs)%nat ->
  drive (ChainFn 0 [ChainFn i xs; ChainFn 0 ys]) rns =
  drive (ChainFn i (xs ++ ys)) rns.
Proof.
  induction rns as [|rn rns IH]; intros i xs Hi; [reflexivity|].
  cbn [drive].
  rewrite (call_chain 0). cbn [chain_loop]. rewrite !call_chain.
  rewrite (chain_loop_app rn ys xs i Hi).
  destruct (chain_loop call rn i xs) as [[[|] [j xs']]|f] eqn:E; cbn [bind];
    try reflexivity.
  - destruct (chain_loop_cursor rn xs i true j xs' Hi E) as (Hl & Hj & _ & _).
    f_equal. apply IH. lia.
  - destruct (chain_loop_cursor rn xs i false j xs' Hi E) as (Hl & _ & _ & _).
    destruct (chain_loop call rn 0 ys) as [[o [k r]]|f] eqn:E'; cbn [bind];
      [|reflexivity].
    destruct (chain_loop_cursor rn ys 0%nat o k r ltac:(lia) E')
      as (Hr & Hk & Hf & Ht).
    rewrite <- Hl, chain_passed_many.
    destruct o; cbn [bind]; f_equal.
    + rewrite chain_last_drive. apply until_reject_chain. lia.
    + rewrite (chain_pinned [_; _]). rewrite (Hf eq_refl), <- Hr.
      symmetry. apply chain_pinned.
Qed.

(** Chains nest: a chain of two chains answers as the one chain of all
    their stages in order. *)
Theorem Chain_of_Chains (xs ys : list Acceptor) (rns : list rune) :
  drive (Chain [Chain xs; Chain ys]) rns = drive (Chain (xs ++ ys)) rns.
Proof. unfold Chain. apply chain_of_chains. lia. Qed.
